(** * The router API of micro-app: src/sandbox/router/api.ts

    A shallow embedding of [createRouterApi]: the navigation methods
    [router.push] and [router.replace] built by [createNavigationMethod],
    the guard pipeline ([runGuards], [executeNavigationGuard]), the ledger
    [router.current] and [clearCurrentWhenUnmount].

    The module is a closure over three pieces of mutable state (the ledger
    and the two guard sets) and talks to collaborators that live in other
    files: the sandbox of each application (virtual location and virtual
    History), the codec that embeds application paths in the browser URL,
    the bridge to the browser History, the idle scheduler and the logger.
    Those collaborators are the fields of the class [Host]; every call the
    module makes to one of them is recorded in a trace of [Event]s, in
    program order, and applied to the host world [W].

    Code that runs inside a collaborator or inside a guard (the sandbox of an
    application, the body of a guard) acts on the host world and can read the
    ledger. Calls from such code back into the router while the router is
    running are not part of this development, and neither is a throw out of
    a collaborator ([createURL] on a malformed URL, a method of a History):
    the collaborators are taken to return. *)

From Stdlib Require Import Ascii String.
From stdpp Require Import base strings gmap list.

Local Open Scope string_scope.
Local Open Scope list_scope.

(** ** Values that cross the API *)

(** Identity of a function object. *)
Definition FnRef := nat.

(** A JavaScript value as far as this module looks into one. An object is
    known by its reference only. *)
Inductive JsValue :=
| JsUndefined
| JsNull
| JsBool (b : bool)
| JsNumber (n : Z)
| JsString (s : string)
| JsFunction (f : FnRef)
| JsObject (ref : nat).

Global Instance JsValue_eq_dec : EqDecision JsValue.
Proof. solve_decision. Defined.

(** [isString] and [isFunction] of libs/utils. *)
Definition isString (v : JsValue) : bool :=
  match v with JsString _ => true | _ => false end.

Definition isFunction (v : JsValue) : bool :=
  match v with JsFunction _ => true | _ => false end.

(** The string carried by a value that passed [isString]. *)
Definition stringOf (v : JsValue) : string :=
  match v with JsString s => s | _ => "" end.

(** [v ?? null] *)
Definition orNull (v : JsValue) : JsValue :=
  match v with JsUndefined | JsNull => JsNull | _ => v end.

(** The part of a URL or of a location that the router reads. *)
Record MicroLocation := {
  pathname : string;
  search : string;
  hash : string
}.

Global Instance MicroLocation_eq_dec : EqDecision MicroLocation.
Proof. solve_decision. Defined.

(** [to] and [from] of a guard are location snapshots, stored as they are in
    [router.current]. *)
Definition GuardLocation := MicroLocation.

(** [l.pathname + l.search + l.hash] *)
Definition fullPathOf (l : MicroLocation) : string :=
  pathname l +:+ search l +:+ hash l.

(** The argument of [router.push] and [router.replace]. A field that is not
    given is [JsUndefined]. The fields are values, not strings and booleans:
    the method checks at run time what it was handed. *)
Record RouterTarget := {
  name : JsValue;
  path : JsValue;
  state : JsValue;
  replace : JsValue
}.

Inductive HistoryMethod := pushState | replaceState.

Global Instance HistoryMethod_eq_dec : EqDecision HistoryMethod.
Proof. solve_decision. Defined.

(** [app.sandBox.proxyWindow.location]; the History object of the proxy
    window is reached through [proxyHistory] of the class [Host]. *)
Record ProxyWindow := { location : MicroLocation }.
Record SandBox := { proxyWindow : ProxyWindow }.
Record AppInterface := {
  url : string;
  sandBox : option SandBox
}.

(** [app && !app.sandBox] *)
Definition sandBoxClosed (app : option AppInterface) : bool :=
  match app with
  | Some a => match sandBox a with None => true | Some _ => false end
  | None => false
  end.

(** Result of [setMicroPathToURL]. *)
Record HandleMicroPathResult := {
  fullPath : string;
  searchHash : string
}.

(** ** Guards *)

(** A member of a guard set. [GuardPlainObject] is a value for which
    [isPlainObject] holds, with its properties; [GuardValue] is any other
    value, among them the functions. The reference tells apart two objects
    with equal properties. *)
Inductive RouterGuard :=
| GuardValue (v : JsValue)
| GuardPlainObject (ref : nat) (entries : list (string * JsValue)).

Global Instance RouterGuard_eq_dec : EqDecision RouterGuard.
Proof. solve_decision. Defined.

Definition isPlainObject (guard : RouterGuard) : bool :=
  match guard with GuardPlainObject _ _ => true | GuardValue _ => false end.

(** [guard[key]]  *)
Fixpoint getProperty (entries : list (string * JsValue)) (key : string) : JsValue :=
  match entries with
  | [] => JsUndefined
  | (k, v) :: rest => if decide (k = key) then v else getProperty rest key
  end.

Definition guardProperty (guard : RouterGuard) (key : string) : JsValue :=
  match guard with
  | GuardPlainObject _ entries => getProperty entries key
  | GuardValue _ => JsUndefined
  end.

(** What a guard function is called with: [(appName, to, from)] for a global
    guard, [(to, from)] for the function a keyed guard holds for the
    application. *)
Inductive GuardArgs :=
| GlobalArgs (appName : string) (to from : GuardLocation)
| AccurateArgs (to from : GuardLocation).

Global Instance GuardArgs_eq_dec : EqDecision GuardArgs.
Proof. solve_decision. Defined.

(** Which of the two guard sets of the closure a set is. *)
Inductive Hook := BeforeEach | AfterEach.

Global Instance Hook_eq_dec : EqDecision Hook.
Proof. solve_decision. Defined.

(** The closure handed to [requestIdleCallback] by
    [executeNavigationGuard]: it captures [appName], [to] and [from]. *)
Inductive IdleCallback :=
| RunAfterGuards (appName : string) (to from : GuardLocation).

(** ** Trace *)

Inductive Event :=
| EvLogError (msg : string)
  (* proxyWindow.history[m](state, '', url) of the sandbox of appName *)
| EvProxyHistory (appName : string) (m : HistoryMethod) (st : JsValue) (target : string)
  (* dispatchPopStateEventToMicroApp(appName, proxyWindow, null) *)
| EvDispatchPopState (appName : string)
  (* nativeHistoryNavigate(m, fullPath, state) *)
| EvNativeHistory (m : HistoryMethod) (target : string) (st : JsValue)
  (* router.current.set(appName, to) *)
| EvLedgerSet (appName : string) (to : GuardLocation)
  (* router.current.delete(appName) *)
| EvLedgerDelete (appName : string)
  (* a member of a guard set is invoked; [seen] is the ledger at that time *)
| EvGuard (hook : Hook) (guard : RouterGuard) (fn : FnRef) (args : GuardArgs)
    (seen : gmap string GuardLocation)
  (* requestIdleCallback(cb) *)
| EvRequestIdle (cb : IdleCallback).

(** Does the event change a History stack, virtual or real? *)
Definition isHistoryMutation (e : Event) : bool :=
  match e with
  | EvProxyHistory _ _ _ _ | EvNativeHistory _ _ _ => true
  | _ => false
  end.

Definition isProxyHistory (e : Event) : bool :=
  match e with EvProxyHistory _ _ _ _ => true | _ => false end.

Definition isNativeHistory (e : Event) : bool :=
  match e with EvNativeHistory _ _ _ => true | _ => false end.

Definition isNotification (e : Event) : bool :=
  match e with EvDispatchPopState _ => true | _ => false end.

(** How a call ends. *)
Inductive Completion := Returned | Thrown.

Global Instance Completion_eq_dec : EqDecision Completion.
Proof. solve_decision. Defined.


(** ** The host *)

(** Everything outside the closure of [createRouterApi]: a world [W] and the
    functions the module imports. None of them is in this file of the
    repository; the development is parametric in them. *)
Class Host (W : Type) := {
  (* formatAppName of libs/utils; the empty string is its failure *)
  formatAppName : JsValue → string;
  (* createURL(path, base) *)
  createURL : string → string → MicroLocation;
  (* appInstanceMap.get(appName) *)
  appInstanceMap : W → string → option AppInterface;
  getActiveApps : W → list string;
  (* location.origin of the host document *)
  locationOrigin : W → string;
  (* globalEnv.rawWindow.history.state *)
  rawHistoryState : W → JsValue;
  (* getMicroPathFromURL(appName): the path of the application decoded from
     the browser URL, if it has one there *)
  getMicroPathFromURL : string → W → option string;
  setMicroPathToURL : string → MicroLocation → W → HandleMicroPathResult;
  setMicroState : string → JsValue → JsValue → string → string → JsValue;
  (* proxyWindow.history[m](state, '', target) of the sandbox of an
     application *)
  proxyHistory : string → HistoryMethod → JsValue → string → W → W;
  dispatchPopStateEventToMicroApp : string → W → W;
  nativeHistoryNavigate : HistoryMethod → string → JsValue → W → W;
  (* the body of a guard function: it is handed its arguments, can read the
     ledger, acts on the host and returns or throws *)
  callGuard : FnRef → GuardArgs → gmap string GuardLocation → W → Completion * W
}.

(** ** State *)

Record State (W : Type) := mkState {
  world : W;
  (* router.current *)
  current : gmap string GuardLocation;
  (* the handlers of the two useCallbacks(), in insertion order *)
  beforeGuards : list RouterGuard;
  afterGuards : list RouterGuard;
  (* callbacks handed to requestIdleCallback that have not run yet *)
  idleCallbacks : list IdleCallback;
  trace : list Event
}.

Arguments mkState {W}.
Arguments world {W}.
Arguments current {W}.
Arguments beforeGuards {W}.
Arguments afterGuards {W}.
Arguments idleCallbacks {W}.
Arguments trace {W}.

(** The events of [s'] that [s] does not have yet. *)
Definition eventsSince {W} (s s' : State W) : list Event :=
  drop (length (trace s)) (trace s').

(** A procedure runs on the state and returns or throws; what it did before
    it threw stays done. *)
Definition Proc (W : Type) := State W → Completion * State W.

(** ** useCallbacks *)

(** Modelled from the spec: [useCallbacks] of libs/utils is not under src/.
    "Guards are stored in an insertion-ordered set; registering the same
    guard reference twice is a no-op (idempotent registration), and a
    registration call returns an unregister capability." The set is the list
    of its members in insertion order, without repetition. *)
Definition callbacksAdd (handler : RouterGuard) (handlers : list RouterGuard)
    : list RouterGuard :=
  if decide (handler ∈ handlers) then handlers else handlers ++ [handler].

(** Modelled from the spec: the "unregister capability" of [useCallbacks]
    takes the handler out of the set. *)
Definition callbacksDelete (handler : RouterGuard) (handlers : list RouterGuard)
    : list RouterGuard :=
  filter (λ h, h ≠ handler) handlers.

Section RouterApi.

Context {W : Type} `{!Host W}.

Definition withWorld (f : W → W) (s : State W) : State W :=
  mkState (f (world s)) (current s) (beforeGuards s) (afterGuards s)
    (idleCallbacks s) (trace s).

Definition withCurrent
    (f : gmap string GuardLocation → gmap string GuardLocation)
    (s : State W) : State W :=
  mkState (world s) (f (current s)) (beforeGuards s) (afterGuards s)
    (idleCallbacks s) (trace s).

Definition guardsOf (h : Hook) (s : State W) : list RouterGuard :=
  match h with BeforeEach => beforeGuards s | AfterEach => afterGuards s end.

Definition withGuards (h : Hook) (f : list RouterGuard → list RouterGuard)
    (s : State W) : State W :=
  match h with
  | BeforeEach =>
      mkState (world s) (current s) (f (beforeGuards s)) (afterGuards s)
        (idleCallbacks s) (trace s)
  | AfterEach =>
      mkState (world s) (current s) (beforeGuards s) (f (afterGuards s))
        (idleCallbacks s) (trace s)
  end.

Definition withIdleCallbacks (f : list IdleCallback → list IdleCallback)
    (s : State W) : State W :=
  mkState (world s) (current s) (beforeGuards s) (afterGuards s)
    (f (idleCallbacks s)) (trace s).

Definition emit (e : Event) (s : State W) : State W :=
  mkState (world s) (current s) (beforeGuards s) (afterGuards s)
    (idleCallbacks s) (trace s ++ [e]).

Definition ret : Proc W := λ s, (Returned, s).
Definition throw : Proc W := λ s, (Thrown, s).
Definition andThen (p q : Proc W) : Proc W :=
  λ s, match p s with
       | (Returned, s') => q s'
       | (Thrown, s') => (Thrown, s')
       end.
Definition act (f : State W → State W) : Proc W := λ s, (Returned, f s).

Notation "p >>> q" := (andThen p q) (at level 60, right associativity).

(** ** Calls to the collaborators *)

Definition logError (msg : string) : Proc W :=
  act (emit (EvLogError msg)).

Definition callProxyHistory (appName : string) (m : HistoryMethod)
    (st : JsValue) (target : string) : Proc W :=
  act (λ s, withWorld (proxyHistory appName m st target)
              (emit (EvProxyHistory appName m st target) s)).

Definition callDispatchPopState (appName : string) : Proc W :=
  act (λ s, withWorld (dispatchPopStateEventToMicroApp appName)
              (emit (EvDispatchPopState appName) s)).

Definition callNativeHistoryNavigate (m : HistoryMethod) (target : string)
    (st : JsValue) : Proc W :=
  act (λ s, withWorld (nativeHistoryNavigate m target st)
              (emit (EvNativeHistory m target st) s)).

(** Modelled from the spec: [requestIdleCallback] of libs/utils is not under
    src/. "Deferred after-guards: model as a task enqueued on a low-priority
    queue processed by the same single-threaded scheduler." The call queues
    the callback and returns; [runIdleCallback] below is the scheduler
    running the oldest queued callback in a later idle slice. *)
Definition requestIdleCallback (cb : IdleCallback) : Proc W :=
  act (λ s, withIdleCallbacks (λ q, q ++ [cb]) (emit (EvRequestIdle cb) s)).

(** ** createNavigationMethod *)

Definition createNavigationMethod (replace_ : bool) (to : RouterTarget) : Proc W :=
  λ s,
  let w := world s in
  let appName := formatAppName (name to) in
  if bool_decide (appName ≠ "") && isString (path to) then
    let app := appInstanceMap w appName in
    if sandBoxClosed app then
      logError ("navigation failed, sandBox of app " +:+ appName +:+ " is closed") s
    else if bool_decide (appName ∈ getActiveApps w) then
      (* app!.sandBox!.proxyWindow: a TypeError when there is no app *)
      match app ≫= λ a, (λ sb, (a, sb)) <$> sandBox a with
      | None => throw s
      | Some (a, sb) =>
        let microLocation := location (proxyWindow sb) in
        let currentFullPath :=
          pathname microLocation +:+ search microLocation +:+ hash microLocation in
        let targetLocation := createURL (stringOf (path to)) (url a) in
        let targetPath :=
          pathname targetLocation +:+ search targetLocation +:+ hash targetLocation in
        if bool_decide (currentFullPath ≠ targetPath) then
          let methodName :=
            if (replace_ && bool_decide (replace to ≠ JsBool false))
               || bool_decide (replace to = JsBool true)
            then replaceState else pushState in
          (callProxyHistory appName methodName (orNull (state to)) targetPath >>>
           callDispatchPopState appName) s
        else ret s
      end
    else
      let targetLocation := createURL (stringOf (path to)) (locationOrigin w) in
      let targetPath :=
        pathname targetLocation +:+ search targetLocation +:+ hash targetLocation in
      if bool_decide (getMicroPathFromURL appName w ≠ Some targetPath) then
        let setMicroPathResult := setMicroPathToURL appName targetLocation w in
        callNativeHistoryNavigate
          (if bool_decide (replace to = JsBool false) then pushState else replaceState)
          (fullPath setMicroPathResult)
          (setMicroState appName (rawHistoryState w) (orNull (state to))
             (locationOrigin w) (searchHash setMicroPathResult)) s
      else ret s
  else
    logError ("navigation failed, name & path are required when use router."
              +:+ (if replace_ then "replace" else "push")) s.

(** ** runGuards *)

(** [fn(...args)] for a member [guard] of the set [h]. *)
Definition invoke (h : Hook) (guard : RouterGuard) (fn : JsValue)
    (args : GuardArgs) : Proc W :=
  λ s,
  match fn with
  | JsFunction f =>
      let s1 := emit (EvGuard h guard f args (current s)) s in
      let '(c, w') := callGuard f args (current s1) (world s1) in
      (c, withWorld (λ _, w') s1)
  | _ => throw s
  end.

(** The value a guard is, for [isFunction]. *)
Definition valueOf (guard : RouterGuard) : JsValue :=
  match guard with
  | GuardValue v => v
  | GuardPlainObject ref _ => JsObject ref
  end.

(** The body of the loop. *)
Definition runGuard (h : Hook) (appName : string) (to from : GuardLocation)
    (guard : RouterGuard) : Proc W :=
  if isFunction (valueOf guard) then
    invoke h guard (valueOf guard) (GlobalArgs appName to from)
  else if isPlainObject guard && isFunction (guardProperty guard appName) then
    invoke h guard (guardProperty guard appName) (AccurateArgs to from)
  else ret.

(** [h] names the set that [guards] is; it labels the trace and is not used
    otherwise. *)
Fixpoint runGuards (h : Hook) (appName : string) (to from : GuardLocation)
    (guards : list RouterGuard) : Proc W :=
  match guards with
  | [] => ret
  | guard :: rest =>
      runGuard h appName to from guard >>> runGuards h appName to from rest
  end.

(** ** executeNavigationGuard and clearCurrentWhenUnmount *)

Definition ledgerSet (appName : string) (to : GuardLocation) : Proc W :=
  act (λ s, withCurrent (λ m, <[appName := to]> m) (emit (EvLedgerSet appName to) s)).

Definition ledgerDelete (appName : string) : Proc W :=
  act (λ s, withCurrent (λ m, delete appName m) (emit (EvLedgerDelete appName) s)).

Definition executeNavigationGuard (appName : string) (to from : GuardLocation)
    : Proc W :=
  ledgerSet appName to >>>
  (λ s, runGuards BeforeEach appName to from (beforeGuards s) s) >>>
  requestIdleCallback (RunAfterGuards appName to from).

Definition clearCurrentWhenUnmount (appName : string) : Proc W :=
  ledgerDelete appName.

(** Modelled from the spec: the scheduler behind [requestIdleCallback], in
    an idle slice, runs the oldest queued callback. The callback is the
    closure of [executeNavigationGuard],
    [() => runGuards(appName, to, from, afterGuards.list())]: it reads the
    set of after-guards when it runs. *)
Definition runIdleCallback : Proc W :=
  λ s,
  match idleCallbacks s with
  | [] => ret s
  | RunAfterGuards appName to from :: rest =>
      let s1 := withIdleCallbacks (λ _, rest) s in
      runGuards AfterEach appName to from (afterGuards s1) s1
  end.

(** ** The router object *)

(** [router.push] and [router.replace] *)
Definition push : RouterTarget → Proc W := createNavigationMethod false.
Definition replace' : RouterTarget → Proc W := createNavigationMethod true.

(** Modelled from the spec: [add] of [useCallbacks], which is
    [router.beforeEach] for the set [beforeGuards] and [router.afterEach] for
    the set [afterGuards]. The guard joins the set and the caller gets the
    function that takes it out again. *)
Definition add (h : Hook) (guard : RouterGuard) (s : State W)
    : (State W → State W) * State W :=
  (withGuards h (callbacksDelete guard), withGuards h (callbacksAdd guard) s).

Definition beforeEach : RouterGuard → State W → (State W → State W) * State W :=
  add BeforeEach.
Definition afterEach : RouterGuard → State W → (State W → State W) * State W :=
  add AfterEach.


End RouterApi.

Notation "p >>> q" := (andThen p q) (at level 60, right associativity).

(** The replace/push table of the specification, to compare the code with:
    the [replace] field of the request decides when it is a boolean, the
    variant that was called decides otherwise. *)
Definition tableMethod (replaceVariant : bool) (field : JsValue) : HistoryMethod :=
  match field with
  | JsBool true => replaceState
  | JsBool false => pushState
  | _ => if replaceVariant then replaceState else pushState
  end.

(** ** Sequences of calls *)

(** The entry points of the module, as the rest of the system calls them. *)
Inductive Call :=
| CallPush (to : RouterTarget)
| CallReplace (to : RouterTarget)
| CallBeforeEach (guard : RouterGuard)
| CallAfterEach (guard : RouterGuard)
| CallUnregister (h : Hook) (guard : RouterGuard)
| CallExecuteNavigationGuard (appName : string) (to from : GuardLocation)
| CallClearCurrentWhenUnmount (appName : string)
| CallRunIdleCallback.

(** What one call does to the ledger, read as a map: only
    [executeNavigationGuard] and [clearCurrentWhenUnmount] have
    [router.current.set] and [router.current.delete] in their bodies. *)
Definition ledgerAfter (m : gmap string GuardLocation) (c : Call)
    : gmap string GuardLocation :=
  match c with
  | CallExecuteNavigationGuard appName to _ => <[appName := to]> m
  | CallClearCurrentWhenUnmount appName => delete appName m
  | _ => m
  end.

Section Calls.

Context {W : Type} `{!Host W}.

(** One call, run to its end. A call that throws leaves the state as it was
    when it threw. *)
Definition runCall (c : Call) (s : State W) : State W :=
  match c with
  | CallPush to => (push to s).2
  | CallReplace to => (replace' to s).2
  | CallBeforeEach guard => (beforeEach guard s).2
  | CallAfterEach guard => (afterEach guard s).2
  | CallUnregister h guard => (add h guard s).1 s
  | CallExecuteNavigationGuard appName to from =>
      (executeNavigationGuard appName to from s).2
  | CallClearCurrentWhenUnmount appName => (clearCurrentWhenUnmount appName s).2
  | CallRunIdleCallback => (runIdleCallback s).2
  end.

Definition runCalls (cs : list Call) (s : State W) : State W :=
  foldl (λ s c, runCall c s) s cs.

(** ** Reading the trace *)

(** The members of guard sets that the events invoke, in order. *)
Definition invokedGuards (evs : list Event) : list RouterGuard :=
  omap (λ e, match e with EvGuard _ guard _ _ _ => Some guard | _ => None end) evs.

(** Does [runGuard] call into the guard for the application? *)
Definition dispatches (appName : string) (guard : RouterGuard) : bool :=
  isFunction (valueOf guard)
  || (isPlainObject guard && isFunction (guardProperty guard appName)).


(** The full path a request resolves to: against the base URL of the
    application when it is active, against the origin of the host when it is
    not. *)
Definition resolvedFullPath (to : RouterTarget) (w : W) : string :=
  let appName := formatAppName (name to) in
  if bool_decide (appName ∈ getActiveApps w) then
    match appInstanceMap w appName with
    | Some a => fullPathOf (createURL (stringOf (path to)) (url a))
    | None => ""
    end
  else fullPathOf (createURL (stringOf (path to)) (locationOrigin w)).



(** ** The ways a navigation method can go *)

Implicit Types (s : State W) (to : RouterTarget).

Definition invalidMessage (replace_ : bool) : string :=
  "navigation failed, name & path are required when use router."
  +:+ (if replace_ then "replace" else "push").

Definition closedMessage (appName : string) : string :=
  "navigation failed, sandBox of app " +:+ appName +:+ " is closed".

Inductive NavOutcome (replace_ : bool) (to : RouterTarget) (s : State W)
  : Completion * State W → Prop :=
| NavInvalid :
    formatAppName (name to) = "" ∨ isString (path to) = false →
    NavOutcome replace_ to s (Returned, emit (EvLogError (invalidMessage replace_)) s)
| NavClosed :
    formatAppName (name to) ≠ "" → isString (path to) = true →
    sandBoxClosed (appInstanceMap (world s) (formatAppName (name to))) = true →
    NavOutcome replace_ to s
      (Returned, emit (EvLogError (closedMessage (formatAppName (name to)))) s)
| NavNoApp :
    formatAppName (name to) ≠ "" → isString (path to) = true →
    formatAppName (name to) ∈ getActiveApps (world s) →
    appInstanceMap (world s) (formatAppName (name to)) = None →
    NavOutcome replace_ to s (Thrown, s)
| NavActiveSame a sb :
    formatAppName (name to) ≠ "" → isString (path to) = true →
    formatAppName (name to) ∈ getActiveApps (world s) →
    appInstanceMap (world s) (formatAppName (name to)) = Some a →
    sandBox a = Some sb →
    fullPathOf (location (proxyWindow sb))
      = fullPathOf (createURL (stringOf (path to)) (url a)) →
    NavOutcome replace_ to s (Returned, s)
| NavActiveMove a sb :
    formatAppName (name to) ≠ "" → isString (path to) = true →
    formatAppName (name to) ∈ getActiveApps (world s) →
    appInstanceMap (world s) (formatAppName (name to)) = Some a →
    sandBox a = Some sb →
    fullPathOf (location (proxyWindow sb))
      ≠ fullPathOf (createURL (stringOf (path to)) (url a)) →
    NavOutcome replace_ to s
      (Returned,
       withWorld (dispatchPopStateEventToMicroApp (formatAppName (name to)))
         (emit (EvDispatchPopState (formatAppName (name to)))
           (withWorld
              (proxyHistory (formatAppName (name to))
                 (tableMethod replace_ (replace to)) (orNull (state to))
                 (fullPathOf (createURL (stringOf (path to)) (url a))))
              (emit
                 (EvProxyHistory (formatAppName (name to))
                    (tableMethod replace_ (replace to)) (orNull (state to))
                    (fullPathOf (createURL (stringOf (path to)) (url a))))
                 s))))
| NavInactiveSame :
    formatAppName (name to) ≠ "" → isString (path to) = true →
    sandBoxClosed (appInstanceMap (world s) (formatAppName (name to))) = false →
    formatAppName (name to) ∉ getActiveApps (world s) →
    getMicroPathFromURL (formatAppName (name to)) (world s)
      = Some (fullPathOf (createURL (stringOf (path to)) (locationOrigin (world s)))) →
    NavOutcome replace_ to s (Returned, s)
| NavInactiveMove :
    formatAppName (name to) ≠ "" → isString (path to) = true →
    sandBoxClosed (appInstanceMap (world s) (formatAppName (name to))) = false →
    formatAppName (name to) ∉ getActiveApps (world s) →
    getMicroPathFromURL (formatAppName (name to)) (world s)
      ≠ Some (fullPathOf (createURL (stringOf (path to)) (locationOrigin (world s)))) →
    NavOutcome replace_ to s
      (let w := world s in
       let appName := formatAppName (name to) in
       let targetLocation := createURL (stringOf (path to)) (locationOrigin w) in
       let r := setMicroPathToURL appName targetLocation w in
       let m := tableMethod true (replace to) in
       let st := setMicroState appName (rawHistoryState w) (orNull (state to))
                   (locationOrigin w) (searchHash r) in
       (Returned,
        withWorld (nativeHistoryNavigate m (fullPath r) st)
          (emit (EvNativeHistory m (fullPath r) st) s))).

(** How a member of a guard set is called for a navigation of [appName]: a
    function with [(appName, to, from)]; a plain object through the function
    it holds at the key [appName], with [(to, from)]. *)
Definition GuardCallRule (appName : string) (to from : GuardLocation)
    (guard : RouterGuard) (f : FnRef) (args : GuardArgs) : Prop :=
  (valueOf guard = JsFunction f ∧ args = GlobalArgs appName to from)
  ∨ (isFunction (valueOf guard) = false ∧ isPlainObject guard = true
     ∧ guardProperty guard appName = JsFunction f
     ∧ args = AccurateArgs to from).

(** The ledger an invoked guard can read shows [appName] at [to]. *)
Definition guardSees (appName : string) (to : GuardLocation) (e : Event) : Prop :=
  match e with
  | EvGuard _ _ _ _ seen => seen !! appName = Some to
  | _ => True
  end.

(** What a run of the loop leaves behind. *)
Record GuardsRun (h : Hook) (appName : string) (to from : GuardLocation)
    (guards : list RouterGuard) (s : State W) (c : Completion) (s' : State W)
    (evs : list Event) : Prop := {
  run_trace : trace s' = trace s ++ evs;
  run_current : current s' = current s;
  run_before : beforeGuards s' = beforeGuards s;
  run_after : afterGuards s' = afterGuards s;
  run_idle : idleCallbacks s' = idleCallbacks s;
  run_calls :
    Forall (λ e, ∃ guard f args,
                   e = EvGuard h guard f args (current s)
                   ∧ GuardCallRule appName to from guard f args) evs;
  run_order :
    ∃ n, invokedGuards evs = take n (List.filter (dispatches appName) guards);
  run_all :
    c = Returned → invokedGuards evs = List.filter (dispatches appName) guards
}.


End Calls.

(** ** A small host *)

(** A concrete host on which the methods run: applications in an association
    list, a browser URL that carries the path of one application as
    [/?name=path], guards that log their calls. *)
Module Demo.

Record World := mkWorld {
  apps : list (string * AppInterface);
  active : list string;
  origin : string;
  (* path, search and hash of the browser URL *)
  href : string;
  rawState : JsValue;
  (* number of entries of the browser History *)
  entries : nat;
  (* the guard functions that ran, in order *)
  guardLog : list FnRef
}.

(** The part of [s] before the first [c], and the rest. *)
Fixpoint splitAt (c : Ascii.ascii) (s : string) : string * string :=
  match s with
  | EmptyString => (EmptyString, EmptyString)
  | String a r =>
      if decide (a = c) then (EmptyString, s)
      else let '(x, y) := splitAt c r in (String a x, y)
  end.

(** A path with its search and hash; the base is not looked at. *)
Definition parsePath (p : string) (base : string) : MicroLocation :=
  let '(beforeHash, h) := splitAt "#"%char p in
  let '(pn, q) := splitAt "?"%char beforeHash in
  {| pathname := pn; search := q; hash := h |}.

Fixpoint stripPrefix (p s : string) : option string :=
  match p, s with
  | EmptyString, _ => Some s
  | String a p', String b s' => if decide (a = b) then stripPrefix p' s' else None
  | String _ _, EmptyString => None
  end.

Fixpoint lookupApp (l : list (string * AppInterface)) (appName : string)
    : option AppInterface :=
  match l with
  | [] => None
  | (k, a) :: rest => if decide (k = appName) then Some a else lookupApp rest appName
  end.

Definition moveApp (appName target : string) (entry : string * AppInterface)
    : string * AppInterface :=
  if decide (entry.1 = appName) then
    match sandBox entry.2 with
    | Some _ =>
        (entry.1,
         {| url := url entry.2;
            sandBox := Some {| proxyWindow :=
                                 {| location := parsePath target (url entry.2) |} |} |})
    | None => entry
    end
  else entry.

Definition encodePath (appName p : string) : string :=
  "/?" +:+ appName +:+ "=" +:+ p.

Global Instance host : Host World := {|
  formatAppName := stringOf;
  createURL := parsePath;
  appInstanceMap := λ w appName, lookupApp (apps w) appName;
  getActiveApps := active;
  locationOrigin := origin;
  rawHistoryState := rawState;
  getMicroPathFromURL := λ appName w, stripPrefix (encodePath appName "") (href w);
  setMicroPathToURL := λ appName l w,
    {| fullPath := encodePath appName (fullPathOf l);
       searchHash := "?" +:+ appName +:+ "=" +:+ fullPathOf l |};
  setMicroState := λ appName raw st origin sh, st;
  proxyHistory := λ appName m st target w,
    mkWorld (moveApp appName target <$> apps w) (active w) (origin w) (href w)
      (rawState w) (entries w) (guardLog w);
  dispatchPopStateEventToMicroApp := λ appName w, w;
  nativeHistoryNavigate := λ m target st w,
    mkWorld (apps w) (active w) (origin w) target st
      (match m with pushState => S (entries w) | replaceState => entries w end)
      (guardLog w);
  (* the guard function 13 throws, the others return *)
  callGuard := λ f args ledger w,
    (if decide (f = 13) then Thrown else Returned,
     mkWorld (apps w) (active w) (origin w) (href w) (rawState w) (entries w)
       (guardLog w ++ [f]))
|}.

Definition at_ (p : string) : MicroLocation := parsePath p "".

(** Application A is mounted at [/a?x=1], C is registered with a closed
    sandbox, B is not registered; the browser URL carries no path. *)
Definition w0 : World :=
  mkWorld
    [("A", {| url := "http://localhost:3001/";
              sandBox := Some {| proxyWindow := {| location := at_ "/a?x=1" |} |} |});
     ("C", {| url := "http://localhost:3003/"; sandBox := None |})]
    ["A"] "http://localhost:8080" "/" JsNull 1 [].

Definition g1 : RouterGuard := GuardValue (JsFunction 1).
Definition g2 : RouterGuard :=
  GuardPlainObject 7 [("A", JsFunction 2); ("B", JsNumber 0)].
Definition g3 : RouterGuard := GuardValue (JsString "not a guard").

Definition s0 : State World := mkState w0 ∅ [] [] [] [].

(** [s0] after [beforeEach(g1)], [beforeEach(g3)], [beforeEach(g2)],
    [afterEach(g1)]. *)
Definition s1 : State World :=
  runCalls [CallBeforeEach g1; CallBeforeEach g3; CallBeforeEach g2; CallAfterEach g1] s0.

Definition target (n p : string) : RouterTarget :=
  {| name := JsString n; path := JsString p; state := JsUndefined; replace := JsUndefined |}.

(** A guard whose body throws, and [s0] after [beforeEach(g1)],
    [beforeEach(g13)], [beforeEach(g2)]. *)
Definition g13 : RouterGuard := GuardValue (JsFunction 13).

Definition s2 : State World :=
  runCalls [CallBeforeEach g1; CallBeforeEach g13; CallBeforeEach g2] s0.

End Demo.

(** * Properties *)

Section Properties.

Context {W : Type} `{!Host W}.

Implicit Types (s : State W) (to : RouterTarget) (evs : list Event).

(** ** The trace only grows *)

Lemma eventsSince_app s s' evs :
  trace s' = trace s ++ evs → eventsSince s s' = evs.
Proof. unfold eventsSince. intros ->. apply drop_app_length. Qed.

Lemma eventsSince_refl s : eventsSince s s = [].
Proof. apply eventsSince_app. by rewrite app_nil_r. Qed.

Lemma eventsSince_emit s e : eventsSince s (emit e s) = [e].
Proof. by apply eventsSince_app. Qed.

(** ** The navigation methods *)

(** The expression that picks the method in the active branch is the table. *)
Lemma active_method_table (replace_ : bool) (field : JsValue) :
  (if (replace_ && bool_decide (field ≠ JsBool false))
      || bool_decide (field = JsBool true)
   then replaceState else pushState) = tableMethod replace_ field.
Proof.
  destruct field as [| |[]| | | |], replace_; reflexivity.
Qed.

(** In the inactive branch it is the table of the replace variant. *)
Lemma inactive_method_table (field : JsValue) :
  (if bool_decide (field = JsBool false) then pushState else replaceState)
  = tableMethod true field.
Proof.
  destruct field as [| |[]| | | |]; reflexivity.
Qed.

Lemma createNavigationMethod_outcome replace_ to s :
  NavOutcome replace_ to s (createNavigationMethod replace_ to s).
Proof.
  unfold createNavigationMethod.
  destruct (bool_decide (formatAppName (name to) ≠ "")) eqn:Hname; simpl.
  2: { apply NavInvalid. left. apply bool_decide_eq_false in Hname.
       by destruct (decide (formatAppName (name to) = "")). }
  apply bool_decide_eq_true in Hname.
  destruct (isString (path to)) eqn:Hpath.
  2: { apply NavInvalid. by right. }
  destruct (sandBoxClosed _) eqn:Hclosed.
  { by apply NavClosed. }
  case_bool_decide as Hact.
  - destruct (appInstanceMap (world s) (formatAppName (name to))) as [a|] eqn:Happ;
      simpl.
    2: { by apply NavNoApp. }
    destruct (sandBox a) as [sb|] eqn:Hsb; simpl.
    2: { simpl in Hclosed. by rewrite Hsb in Hclosed. }
    case_bool_decide as Hsame.
    + rewrite active_method_table.
      by apply (NavActiveMove _ _ _ a sb).
    + apply (NavActiveSame _ _ _ a sb); try done.
      all: by apply dec_stable.
  - case_bool_decide as Hsame.
    + rewrite inactive_method_table. by apply NavInactiveMove.
    + apply NavInactiveSame; try done.
      all: by apply dec_stable.
Qed.

(** What a navigation method does: nothing, one error, the call to the
    virtual History with its notification (active application only), or the
    call to the browser History (inactive application only). *)
Lemma NavOutcome_effects replace_ to s r :
  NavOutcome replace_ to s r →
  let appName := formatAppName (name to) in
  (eventsSince s r.2 = [] ∧ world r.2 = world s)
  ∨ (∃ msg, eventsSince s r.2 = [EvLogError msg] ∧ world r.2 = world s)
  ∨ (appName ∈ getActiveApps (world s)
     ∧ ∃ m st p,
         eventsSince s r.2
         = [EvProxyHistory appName m st p; EvDispatchPopState appName]
         ∧ world r.2 = dispatchPopStateEventToMicroApp appName
                         (proxyHistory appName m st p (world s)))
  ∨ ((appName ∉ getActiveApps (world s))
     ∧ ∃ m p st,
         eventsSince s r.2 = [EvNativeHistory m p st]
         ∧ world r.2 = nativeHistoryNavigate m p st (world s)).
Proof.
  intros Hr appName. destruct Hr; simpl.
  - right; left. eexists. split; [apply eventsSince_emit | done].
  - right; left. eexists. split; [apply eventsSince_emit | done].
  - left. split; [apply eventsSince_refl | done].
  - left. split; [apply eventsSince_refl | done].
  - right; right; left. split; [done|]. do 3 eexists. split; [|done].
    apply eventsSince_app. simpl. by rewrite <- app_assoc.
  - left. split; [apply eventsSince_refl | done].
  - right; right; right. split; [done|]. do 3 eexists. split; [|done].
    by apply eventsSince_app.
Qed.

(** C4. A request for an application that [getActiveApps] lists never calls
    the bridge to the browser History: the host is as before or as the
    virtual History of the application and the notification left it. A
    request for an application that [getActiveApps] does not list never calls
    the virtual History of a sandbox and sends no notification into one: the
    host is as before or as the bridge to the browser History left it. *)
Theorem active_inactive_routing replace_ to s :
  let appName := formatAppName (name to) in
  let s' := (createNavigationMethod replace_ to s).2 in
  (appName ∈ getActiveApps (world s) →
     Forall (λ e, isNativeHistory e = false) (eventsSince s s')
     ∧ (world s' = world s
        ∨ ∃ m st p,
            world s' = dispatchPopStateEventToMicroApp appName
                         (proxyHistory appName m st p (world s))))
  ∧ (appName ∉ getActiveApps (world s) →
     Forall (λ e, isProxyHistory e = false ∧ isNotification e = false)
       (eventsSince s s')
     ∧ (world s' = world s
        ∨ ∃ m p st, world s' = nativeHistoryNavigate m p st (world s))).
Proof.
  intros appName s'. subst s'.
  destruct (NavOutcome_effects _ _ _ _
              (createNavigationMethod_outcome replace_ to s))
    as [[-> ->] | [(msg & -> & ->) | [[Hact (m & st & p & -> & ->)]
                                      | [Hin (m & p & st & -> & ->)]]]];
    (split; intros Hcls; [try done | try done]).
  all: split; [by repeat constructor|].
  all: first [by left | right; by eauto].
Qed.

(** The four rows of the table. *)
Lemma tableMethod_rows :
  tableMethod true JsUndefined = replaceState
  ∧ tableMethod true (JsBool false) = pushState
  ∧ tableMethod false JsUndefined = pushState
  ∧ tableMethod false (JsBool true) = replaceState.
Proof. done. Qed.

(** C2, as amended. A request that moves an active application calls the
    virtual History with the method of the table: replace for
    [replace(..)] unless the request says [replace: false], push for
    [push(..)] unless it says [replace: true]; then it notifies the
    application. A request that moves an inactive application calls the
    browser History with the method the table gives for the replace variant,
    whichever variant was called: push when the request says
    [replace: false], replace otherwise. *)
Theorem navigation_method replace_ to s :
  let w := world s in
  let appName := formatAppName (name to) in
  let evs := eventsSince s (createNavigationMethod replace_ to s).2 in
  appName ≠ "" → isString (path to) = true →
  sandBoxClosed (appInstanceMap w appName) = false →
  (∀ a sb,
     appName ∈ getActiveApps w →
     appInstanceMap w appName = Some a → sandBox a = Some sb →
     let targetPath := fullPathOf (createURL (stringOf (path to)) (url a)) in
     fullPathOf (location (proxyWindow sb)) ≠ targetPath →
     evs = [EvProxyHistory appName (tableMethod replace_ (replace to))
              (orNull (state to)) targetPath;
            EvDispatchPopState appName])
  ∧ (appName ∉ getActiveApps w →
     let targetLocation := createURL (stringOf (path to)) (locationOrigin w) in
     let setMicroPathResult := setMicroPathToURL appName targetLocation w in
     getMicroPathFromURL appName w ≠ Some (fullPathOf targetLocation) →
     evs = [EvNativeHistory (tableMethod true (replace to))
              (fullPath setMicroPathResult)
              (setMicroState appName (rawHistoryState w) (orNull (state to))
                 (locationOrigin w) (searchHash setMicroPathResult))]).
Proof.
  intros w appName evs Hname Hpath Hopen. subst w appName evs.
  destruct (createNavigationMethod_outcome replace_ to s)
    as [Hbad|? ? Hc|? ? Hact Hnone|a' sb' ? ? Hact Ha Hsb Hsame
        |a' sb' ? ? Hact Ha Hsb Hmove|? ? ? Hin Hsame|? ? ? Hin Hmove]; simpl.
  - destruct Hbad as [Hbad|Hbad]; [done | congruence].
  - congruence.
  - split; [intros a sb _ Ha; congruence | done].
  - split; [|done]. intros a sb _ Ha2 Hsb2 Hne. congruence.
  - split; [|done]. intros a sb _ Ha2 Hsb2 Hne.
    assert (a = a') as -> by congruence.
    apply eventsSince_app. simpl. by rewrite <- app_assoc.
  - split; [done|]. intros _ Hne. congruence.
  - split; [done|]. intros _ Hne. by apply eventsSince_app.
Qed.

Lemma invalid_request_outcome replace_ to s :
  formatAppName (name to) = "" ∨ isString (path to) = false →
  createNavigationMethod replace_ to s
  = (Returned, emit (EvLogError (invalidMessage replace_)) s).
Proof.
  intros Hbad.
  by destruct (createNavigationMethod_outcome replace_ to s);
    try (destruct Hbad; congruence).
Qed.

(** C3, as amended. The validation of a request is that [formatAppName]
    accepts its name and that its path is a string; whether an application
    is registered under the name is not part of it. When the validation
    fails the method returns, its only effect is one error that names the
    method, and the host, the ledger, the guard sets and the idle queue are
    as before. When it passes, that error is not reported. *)
Theorem invalid_request_reported replace_ to s :
  let r := createNavigationMethod replace_ to s in
  let report :=
    EvLogError ("navigation failed, name & path are required when use router."
                +:+ (if replace_ then "replace" else "push")) in
  (formatAppName (name to) = "" ∨ isString (path to) = false →
   r.1 = Returned
   ∧ eventsSince s r.2 = [report]
   ∧ world r.2 = world s ∧ current r.2 = current s
   ∧ beforeGuards r.2 = beforeGuards s ∧ afterGuards r.2 = afterGuards s
   ∧ idleCallbacks r.2 = idleCallbacks s)
  ∧ (formatAppName (name to) ≠ "" → isString (path to) = true →
     report ∉ eventsSince s r.2).
Proof.
  intros r report. subst r report. split.
  - intros Hbad. rewrite invalid_request_outcome by done. simpl.
    split_and!; try done. apply eventsSince_emit.
  - intros Hname Hpath Hin.
    destruct (createNavigationMethod_outcome replace_ to s)
      as [Hbad|? ? Hc|? ? Hact Hnone|a sb ? ? Hact Ha Hsb Hsame
          |a sb ? ? Hact Ha Hsb Hmove|? ? Hopen Hact Hsame|? ? Hopen Hact Hmove];
      simpl in Hin.
    + destruct Hbad; congruence.
    + rewrite eventsSince_emit in Hin.
      by apply list_elem_of_singleton in Hin as [= Hmsg].
    + rewrite eventsSince_refl in Hin. by apply not_elem_of_nil in Hin.
    + rewrite eventsSince_refl in Hin. by apply not_elem_of_nil in Hin.
    + erewrite (eventsSince_app s _ [_; _]) in Hin
        by (simpl; by rewrite <- app_assoc).
      apply elem_of_cons in Hin as [?|Hin]; [done|].
      by apply list_elem_of_singleton in Hin.
    + rewrite eventsSince_refl in Hin. by apply not_elem_of_nil in Hin.
    + erewrite (eventsSince_app s _ [_]) in Hin by (simpl; done).
      by apply list_elem_of_singleton in Hin.
Qed.

Lemma resolvedFullPath_active to (w : W) a :
  formatAppName (name to) ∈ getActiveApps w →
  appInstanceMap w (formatAppName (name to)) = Some a →
  resolvedFullPath to w = fullPathOf (createURL (stringOf (path to)) (url a)).
Proof.
  intros Hact Ha. unfold resolvedFullPath.
  rewrite bool_decide_eq_true_2 by done. by rewrite Ha.
Qed.

Lemma resolvedFullPath_inactive to (w : W) :
  formatAppName (name to) ∉ getActiveApps w →
  resolvedFullPath to w
  = fullPathOf (createURL (stringOf (path to)) (locationOrigin w)).
Proof.
  intros Hin. unfold resolvedFullPath. by rewrite bool_decide_eq_false_2.
Qed.





End Properties.

(** ** The guard loop *)

Section GuardProperties.

Context {W : Type} `{!Host W}.

Implicit Types (s : State W) (to from : GuardLocation) (guard : RouterGuard)
  (h : Hook) (evs : list Event).

Lemma invokedGuards_app evs1 evs2 :
  invokedGuards (evs1 ++ evs2) = invokedGuards evs1 ++ invokedGuards evs2.
Proof. unfold invokedGuards. apply omap_app. Qed.

Lemma runGuard_skip h appName to from guard s :
  dispatches appName guard = false →
  runGuard h appName to from guard s = (Returned, s).
Proof.
  unfold dispatches, runGuard. intros Hd.
  apply orb_false_iff in Hd as [-> ->]. reflexivity.
Qed.

(** One turn of the loop on a guard that is called: the call is recorded with
    the ledger as it is, the body runs on the host, nothing else changes. *)
Lemma runGuard_call h appName to from guard s :
  dispatches appName guard = true →
  ∃ f args,
    GuardCallRule appName to from guard f args
    ∧ runGuard h appName to from guard s
      = ((callGuard f args (current s) (world s)).1,
         withWorld (λ _, (callGuard f args (current s) (world s)).2)
           (emit (EvGuard h guard f args (current s)) s)).
Proof.
  unfold dispatches, runGuard. intros Hd.
  destruct (isFunction (valueOf guard)) eqn:Hfn.
  - destruct (valueOf guard) as [| | | | |f|] eqn:Hv; try done.
    exists f, (GlobalArgs appName to from). split; [by left|].
    unfold invoke. simpl. by destruct (callGuard _ _ _ _).
  - simpl in Hd. rewrite Hd. apply andb_true_iff in Hd as [Hobj Hprop].
    destruct (guardProperty guard appName) as [| | | | |f|] eqn:Hv; try done.
    exists f, (AccurateArgs to from). split; [by right|].
    unfold invoke. simpl. by destruct (callGuard _ _ _ _).
Qed.

Lemma runGuards_run h appName to from guards s :
  ∃ evs, GuardsRun h appName to from guards s
           (runGuards h appName to from guards s).1
           (runGuards h appName to from guards s).2 evs.
Proof.
  revert s. induction guards as [|guard rest IH]; intros s; simpl.
  - exists []. split; try done.
    + by rewrite app_nil_r.
    + by exists 0.
  - unfold andThen.
    destruct (dispatches appName guard) eqn:Hd.
    + destruct (runGuard_call h appName to from guard s Hd)
        as (f & args & Hrule & ->).
      destruct (callGuard f args (current s) (world s)) as [[] w'] eqn:Hcall;
        simpl.
      * destruct (IH (withWorld (λ _, w')
                        (emit (EvGuard h guard f args (current s)) s)))
          as [evs [Ht Hc Hb Ha Hi Hcalls [n Hn] Hall]].
        exists (EvGuard h guard f args (current s) :: evs).
        split; try done.
        -- rewrite Ht. simpl. by rewrite <- app_assoc.
        -- constructor; [by eauto|done].
        -- exists (S n). simpl. rewrite Hd. simpl. by rewrite Hn.
        -- intros Hret. simpl. rewrite Hd. by rewrite Hall.
      * exists [EvGuard h guard f args (current s)].
        split; try done.
        -- repeat constructor. eauto.
        -- exists 1. simpl. rewrite Hd. simpl. by rewrite take_0.
    + rewrite runGuard_skip by done.
      destruct (IH s) as [evs [Ht Hc Hb Ha Hi Hcalls [n Hn] Hall]].
      exists evs. split; try done.
      * exists n. simpl. by rewrite Hd.
      * intros Hret. simpl. rewrite Hd. by apply Hall.
Qed.

(** ** executeNavigationGuard *)

(** The events of one call: the write to the ledger, the calls of the loop
    over the before-guards, and the request for an idle callback when the
    loop returned. *)
Lemma executeNavigationGuard_events appName to from s c s' :
  executeNavigationGuard appName to from s = (c, s') →
  ∃ calls,
    eventsSince s s'
    = EvLedgerSet appName to
        :: calls ++ match c with
                    | Returned => [EvRequestIdle (RunAfterGuards appName to from)]
                    | Thrown => []
                    end
    ∧ current s' = <[appName := to]> (current s)
    ∧ beforeGuards s' = beforeGuards s
    ∧ afterGuards s' = afterGuards s
    ∧ idleCallbacks s'
      = idleCallbacks s ++ match c with
                           | Returned => [RunAfterGuards appName to from]
                           | Thrown => []
                           end
    ∧ Forall (λ e, ∃ guard f args,
                e = EvGuard BeforeEach guard f args (<[appName := to]> (current s))
                ∧ GuardCallRule appName to from guard f args) calls
    ∧ (∃ n, invokedGuards calls
            = take n (List.filter (dispatches appName) (beforeGuards s)))
    ∧ (c = Returned →
       invokedGuards calls = List.filter (dispatches appName) (beforeGuards s)).
Proof.
  unfold executeNavigationGuard, andThen, ledgerSet, requestIdleCallback, act.
  set (s0 := withCurrent (λ m, <[appName := to]> m) (emit (EvLedgerSet appName to) s)).
  simpl.
  destruct (runGuards_run BeforeEach appName to from (beforeGuards s) s0)
    as [calls [Ht Hc Hb Ha Hi Hcalls Hn Hall]].
  destruct (runGuards BeforeEach appName to from (beforeGuards s) s0)
    as [[] sg]; simpl in *; intros [= <- <-]; exists calls; simpl.
  - split_and!; try done.
    + apply eventsSince_app. simpl. rewrite Ht.
      by rewrite <- !app_assoc.
    + by rewrite Hi.
  - split_and!; try done.
    + apply eventsSince_app. simpl. rewrite Ht, app_nil_r.
      by rewrite <- !app_assoc.
    + by rewrite Hi, app_nil_r.
Qed.

Lemma invokedGuards_executeNavigationGuard appName to from calls c :
  invokedGuards
    (EvLedgerSet appName to
       :: calls ++ match c with
                   | Returned => [EvRequestIdle (RunAfterGuards appName to from)]
                   | Thrown => []
                   end)
  = invokedGuards calls.
Proof.
  change (invokedGuards (EvLedgerSet appName to :: ?l)) with (invokedGuards l).
  rewrite invokedGuards_app. destruct c; simpl; by rewrite app_nil_r.
Qed.

(** C5. After [executeNavigationGuard(appName, to, from)], returned or
    thrown out of by a guard, the ledger holds [to] for [appName]; the write
    is the first thing the call does, and the ledger that each guard invoked
    by the call can read already holds [to] for [appName]. *)
Theorem ledger_written_before_guards appName to from s c s' :
  executeNavigationGuard appName to from s = (c, s') →
  current s' !! appName = Some to
  ∧ head (eventsSince s s') = Some (EvLedgerSet appName to)
  ∧ Forall (guardSees appName to) (eventsSince s s').
Proof.
  intros Hrun.
  destruct (executeNavigationGuard_events _ _ _ _ _ _ Hrun)
    as (calls & -> & -> & _ & _ & _ & Hcalls & _).
  split_and!.
  - apply lookup_insert_eq.
  - done.
  - constructor; [done|]. apply Forall_app. split.
    + eapply Forall_impl; [apply Hcalls|].
      intros e (guard & f & args & -> & _). simpl. apply lookup_insert_eq.
    + destruct c; repeat constructor.
Qed.

(** ** Registration *)

Lemma callbacksAdd_fresh guard (l : list RouterGuard) :
  guard ∉ l → callbacksAdd guard l = l ++ [guard].
Proof. intros Hnot. unfold callbacksAdd. by rewrite decide_False. Qed.

Lemma callbacksAdd_known guard (l : list RouterGuard) :
  guard ∈ l → callbacksAdd guard l = l.
Proof. intros Hin. unfold callbacksAdd. by rewrite decide_True. Qed.

Lemma elem_of_callbacksAdd guard guard' (l : list RouterGuard) :
  guard' ∈ callbacksAdd guard l ↔ guard' = guard ∨ guard' ∈ l.
Proof.
  unfold callbacksAdd. case_decide as Hin.
  - split; [by right|]. by intros [->|].
  - rewrite elem_of_app, list_elem_of_singleton. tauto.
Qed.

Lemma callbacksAdd_NoDup guard (l : list RouterGuard) :
  NoDup l → NoDup (callbacksAdd guard l).
Proof.
  intros Hnd. unfold callbacksAdd. case_decide as Hin; [done|].
  apply NoDup_app. split_and!; [done | | apply NoDup_singleton].
  intros x Hx ->%list_elem_of_singleton. done.
Qed.

Lemma callbacksDelete_gone guard (l : list RouterGuard) :
  guard ∉ callbacksDelete guard l.
Proof. unfold callbacksDelete. rewrite list_elem_of_filter. tauto. Qed.

Lemma callbacksDelete_NoDup guard (l : list RouterGuard) :
  NoDup l → NoDup (callbacksDelete guard l).
Proof. apply NoDup_filter. Qed.

Lemma guardsOf_add h guard s :
  guardsOf h (add h guard s).2 = callbacksAdd guard (guardsOf h s).
Proof. by destruct h. Qed.

(** In a set that [guard2] joined last, no call of [guard2] comes before a
    call of another member. *)
Lemma invoked_last (l : list RouterGuard) guard1 guard2 appName n i j :
  guard1 ≠ guard2 → guard2 ∉ l →
  take n (List.filter (dispatches appName) (l ++ [guard2])) !! i = Some guard2 →
  take n (List.filter (dispatches appName) (l ++ [guard2])) !! j = Some guard1 →
  j < i.
Proof.
  intros Hne Hfresh. rewrite List.filter_app.
  intros [Hi _]%lookup_take_Some [Hj _]%lookup_take_Some.
  apply lookup_app_Some in Hi as [Hi | [Hlen _]].
  { exfalso. apply Hfresh. apply list_elem_of_lookup_2 in Hi.
    apply list_elem_of_In, List.filter_In in Hi as [Hi _].
    by apply list_elem_of_In. }
  apply lookup_app_Some in Hj as [Hj | [_ Hj]].
  { apply lookup_lt_Some in Hj. lia. }
  exfalso. apply Hne.
  apply list_elem_of_lookup_2, list_elem_of_In, List.filter_In in Hj as [Hj _].
  destruct Hj as [Hj|[]]. done.
Qed.

(** C6. A navigation calls the before-guards in the order of their set, one
    after the other inside the call: the guards it invokes are, in order, the
    members of the set that have something to call for the application, up
    to the one that throws if one does. A guard registered after another is
    called after it. A function is called with [(appName, to, from)]; a plain
    object is called only through a function it holds at the key [appName],
    with [(to, from)]. *)
Theorem before_guards_in_registration_order appName to from s0 guard1 guard2 c s' :
  guard1 ≠ guard2 → guard2 ∉ beforeGuards s0 →
  let s := (beforeEach guard2 (beforeEach guard1 s0).2).2 in
  executeNavigationGuard appName to from s = (c, s') →
  let invoked := invokedGuards (eventsSince s s') in
  (∃ n, invoked = take n (List.filter (dispatches appName) (beforeGuards s)))
  ∧ (c = Returned → invoked = List.filter (dispatches appName) (beforeGuards s))
  ∧ (∀ i j, invoked !! i = Some guard2 → invoked !! j = Some guard1 → j < i)
  ∧ Forall (λ e, ∀ h guard f args seen,
              e = EvGuard h guard f args seen →
              h = BeforeEach ∧ GuardCallRule appName to from guard f args)
      (eventsSince s s').
Proof.
  intros Hne Hfresh s Hrun invoked.
  destruct (executeNavigationGuard_events _ _ _ _ _ _ Hrun)
    as (calls & Hevs & _ & _ & _ & _ & Hcalls & [n Hn] & Hall).
  subst invoked. rewrite Hevs, invokedGuards_executeNavigationGuard.
  split_and!.
  - by exists n.
  - done.
  - rewrite Hn.
    change (beforeGuards s)
      with (callbacksAdd guard2 (callbacksAdd guard1 (beforeGuards s0))).
    rewrite (callbacksAdd_fresh guard2).
    + intros i j. apply (invoked_last _ guard1 guard2); [done|].
      rewrite elem_of_callbacksAdd. intros [?|?]; [congruence|done].
    + rewrite elem_of_callbacksAdd. intros [?|?]; [congruence|done].
  - constructor; [by intros|]. apply Forall_app. split.
    + eapply Forall_impl; [apply Hcalls|].
      intros e (g & f & args & -> & Hrule) ? ? ? ? ? [= <- <- <- <- _]. done.
    + destruct c; repeat constructor; by intros.
Qed.


(** ** The ledger between unmount and the next navigation *)

Lemma createNavigationMethod_current replace_ (t : RouterTarget) s :
  current (createNavigationMethod replace_ t s).2 = current s.
Proof. by destruct (createNavigationMethod_outcome replace_ t s). Qed.

Lemma runIdleCallback_current s : current (runIdleCallback s).2 = current s.
Proof.
  unfold runIdleCallback. destruct (idleCallbacks s) as [|[appName to from] rest];
    [done|].
  set (s1 := withIdleCallbacks (λ _, rest) s).
  destruct (runGuards_run AfterEach appName to from (afterGuards s1) s1)
    as [evs [_ Hc _ _ _ _ _ _]].
  by rewrite Hc.
Qed.

Lemma executeNavigationGuard_current appName to from s :
  current (executeNavigationGuard appName to from s).2
  = <[appName := to]> (current s).
Proof.
  destruct (executeNavigationGuard appName to from s) as [c s'] eqn:Hrun.
  by destruct (executeNavigationGuard_events _ _ _ _ _ _ Hrun)
    as (calls & _ & Hc & _).
Qed.




(** ** Registering twice *)

Lemma filter_sublist (f : RouterGuard → bool) (l : list RouterGuard) :
  List.filter f l `sublist_of` l.
Proof.
  induction l as [|x l IH]; simpl; [done|].
  destruct (f x); by constructor.
Qed.

Lemma filter_absent guard (l : list RouterGuard) :
  guard ∉ l → filter (λ g, g = guard) l = [].
Proof.
  induction l as [|x l IH]; [done|].
  intros [Hx Hl]%not_elem_of_cons. rewrite filter_cons.
  rewrite decide_False by congruence. by apply IH.
Qed.

Lemma NoDup_at_most_once guard (l : list RouterGuard) :
  NoDup l → (length (filter (λ g, g = guard) l) ≤ 1)%nat.
Proof.
  induction 1 as [|x l Hx Hnd IH]; [simpl; lia|].
  rewrite filter_cons. case_decide as Heq; [|done].
  subst x. simpl.
  rewrite filter_absent by done. simpl. lia.
Qed.

Lemma add_known h guard s :
  guard ∈ guardsOf h s → (add h guard s).2 = s.
Proof.
  intros Hin. destruct s, h; unfold add, withGuards; simpl in *;
    by rewrite callbacksAdd_known.
Qed.

(** C9. [beforeEach(guard)] and [afterEach(guard)] (the [add] of their set)
    put the guard in the set and hand back a function that takes it out.
    Registering a guard that is in the set changes nothing; the set stays
    without repetition, and a run of the loop over it calls the guard at most
    once. *)
Theorem registration_idempotent h guard s :
  let s1 := (add h guard s).2 in
  let unregister := (add h guard s).1 in
  guard ∈ guardsOf h s1
  ∧ (add h guard s1).2 = s1
  ∧ (guard ∉ guardsOf h (unregister s1))
  ∧ (NoDup (guardsOf h s) →
     let s2 := (add h guard s1).2 in
     NoDup (guardsOf h s2)
     ∧ ∀ appName to from,
         (length (filter (λ g, g = guard)
                    (invokedGuards
                       (eventsSince s2
                          (runGuards h appName to from (guardsOf h s2) s2).2)))
          ≤ 1)%nat).
Proof.
  intros s1 unregister.
  assert (guard ∈ guardsOf h s1) as Hin.
  { unfold s1. rewrite guardsOf_add, elem_of_callbacksAdd. by left. }
  assert ((add h guard s1).2 = s1) as Hsame by by apply add_known.
  split_and!; [done | done | |].
  - unfold unregister. destruct h; simpl; apply callbacksDelete_gone.
  - intros Hnd s2. unfold s2. rewrite Hsame.
    assert (NoDup (guardsOf h s1)) as Hnd1.
    { unfold s1. rewrite guardsOf_add. by apply callbacksAdd_NoDup. }
    split; [done|]. intros appName to from.
    destruct (runGuards_run h appName to from (guardsOf h s1) s1)
      as [evs [Ht _ _ _ _ _ [n Hn] _]].
    rewrite (eventsSince_app s1 _ evs) by done.
    apply NoDup_at_most_once. rewrite Hn.
    eapply sublist_NoDup; [apply Hnd1|].
    etrans; [apply sublist_take | apply filter_sublist].
Qed.

(** ** Members of a guard set that are not guards *)

(** C10. A member of the set that is neither a function nor a plain object
    holding a function at the key of the application is passed over: its turn
    of the loop returns with nothing done, and the loop runs as if the member
    were not in the set. The loop throws only if the body of a guard it
    calls throws. *)
Theorem malformed_guard_skipped h appName to from guard s :
  dispatches appName guard = false →
  runGuard h appName to from guard s = (Returned, s)
  ∧ (∀ pre post s',
       runGuards h appName to from (pre ++ guard :: post) s'
       = runGuards h appName to from (pre ++ post) s')
  ∧ (∀ guards,
       (∀ g f args ledger w,
          g ∈ guards → GuardCallRule appName to from g f args →
          (callGuard f args ledger w).1 = Returned) →
       (runGuards h appName to from guards s).1 = Returned).
Proof.
  intros Hd. split_and!.
  - by apply runGuard_skip.
  - intros pre. induction pre as [|g pre IH]; intros post s'; simpl.
    + unfold andThen. by rewrite runGuard_skip.
    + unfold andThen. destruct (runGuard h appName to from g s') as [[] s''];
        [apply IH | done].
  - intros guards. revert s.
    induction guards as [|g guards IH]; intros s Hbodies; [done|].
    simpl. unfold andThen.
    destruct (dispatches appName g) eqn:Hg.
    + destruct (runGuard_call h appName to from g s Hg)
        as (f & args & Hrule & ->).
      rewrite (Hbodies g f args (current s) (world s));
        [| apply list_elem_of_here | done].
      apply IH. intros g' f' args' ledger w Hin. apply Hbodies.
      by apply list_elem_of_further.
    + rewrite runGuard_skip by done. apply IH.
      intros g' f' args' ledger w Hin. apply Hbodies.
      by apply list_elem_of_further.
Qed.

End GuardProperties.

(** * More of the module *)

Section NavigationEdges.

Context {W : Type} `{!Host W}.

Implicit Types (s : State W) (t : RouterTarget).

(** A registered application without a sandbox: nothing can be open, and
    nothing with an open sandbox is closed. *)
Lemma sandBoxClosed_Some (a : AppInterface) sb :
  sandBox a = Some sb → sandBoxClosed (Some a) = false.
Proof. simpl. by intros ->. Qed.

(** X1. A request for a registered application whose sandbox is gone is
    reported and does nothing else, whether [getActiveApps] lists the
    application or not and whatever its path: the method returns, the only
    event is the error that names the application, and the host, the ledger,
    the guard sets and the idle queue are as before. *)
Theorem closed_sandbox_reported replace_ t s :
  formatAppName (name t) ≠ "" → isString (path t) = true →
  sandBoxClosed (appInstanceMap (world s) (formatAppName (name t))) = true →
  let r := createNavigationMethod replace_ t s in
  r.1 = Returned
  ∧ eventsSince s r.2
    = [EvLogError ("navigation failed, sandBox of app "
                   +:+ formatAppName (name t) +:+ " is closed")]
  ∧ world r.2 = world s ∧ current r.2 = current s
  ∧ beforeGuards r.2 = beforeGuards s ∧ afterGuards r.2 = afterGuards s
  ∧ idleCallbacks r.2 = idleCallbacks s.
Proof.
  intros Hname Hpath Hclosed r. subst r.
  destruct (createNavigationMethod_outcome replace_ t s)
    as [Hbad|? ? Hc|? ? Hact Hnone|a sb ? ? Hact Ha Hsb Hsame
        |a sb ? ? Hact Ha Hsb Hmove|? ? Hopen Hin Hsame|? ? Hopen Hin Hmove];
    simpl.
  - destruct Hbad; congruence.
  - split_and!; try done. apply eventsSince_emit.
  - rewrite Hnone in Hclosed. done.
  - rewrite Ha, (sandBoxClosed_Some a sb) in Hclosed; done.
  - rewrite Ha, (sandBoxClosed_Some a sb) in Hclosed; done.
  - congruence.
  - congruence.
Qed.

(** X4. A navigation method calls a History, virtual or real, exactly when
    the request has a name and a string path, the sandbox of the application
    is not closed, and the full path the request resolves to differs from
    where the application is: from its virtual location when it is active
    and registered, from its path in the browser URL when it is not active.
    The [state] and [replace] fields of the request play no part in that.
    When no History is called, the host is left as it was and no
    notification is sent. *)
Theorem history_mutated_iff replace_ t s :
  let w := world s in
  let appName := formatAppName (name t) in
  let r := createNavigationMethod replace_ t s in
  ((∃ e, e ∈ eventsSince s r.2 ∧ isHistoryMutation e = true)
   ↔ appName ≠ "" ∧ isString (path t) = true
     ∧ sandBoxClosed (appInstanceMap w appName) = false
     ∧ ((appName ∈ getActiveApps w
         ∧ ∃ a sb, appInstanceMap w appName = Some a ∧ sandBox a = Some sb
                   ∧ fullPathOf (location (proxyWindow sb)) ≠ resolvedFullPath t w)
        ∨ ((appName ∉ getActiveApps w)
           ∧ getMicroPathFromURL appName w ≠ Some (resolvedFullPath t w))))
  ∧ ((∀ e, e ∈ eventsSince s r.2 → isHistoryMutation e = false) →
     world r.2 = world s
     ∧ ∀ e, e ∈ eventsSince s r.2 → isNotification e = false).
Proof.
  intros w appName r. subst w appName r.
  destruct (createNavigationMethod_outcome replace_ t s)
    as [Hbad|? ? Hc|? ? Hact Hnone|a sb ? ? Hact Ha Hsb Hsame
        |a sb ? ? Hact Ha Hsb Hmove|? ? Hopen Hin Hsame|? ? Hopen Hin Hmove];
    simpl.
  - rewrite eventsSince_emit. split.
    + split.
      * intros (e & ->%list_elem_of_singleton & He). done.
      * intros (? & ? & _). destruct Hbad; congruence.
    + intros _. split; [done|]. by intros e ->%list_elem_of_singleton.
  - rewrite eventsSince_emit. split.
    + split.
      * intros (e & ->%list_elem_of_singleton & He). done.
      * intros (_ & _ & ? & _). congruence.
    + intros _. split; [done|]. by intros e ->%list_elem_of_singleton.
  - rewrite eventsSince_refl. split.
    + split.
      * intros (e & He & _). by apply not_elem_of_nil in He.
      * intros (_ & _ & _ & [(_ & a & sb & Ha & _) | (Hin & _)]);
          [congruence | done].
    + intros _. split; [done|]. intros e He. by apply not_elem_of_nil in He.
  - rewrite eventsSince_refl. split.
    + split.
      * intros (e & He & _). by apply not_elem_of_nil in He.
      * intros (_ & _ & _ & [(_ & a' & sb' & Ha' & Hsb' & Hne) | (Hin & _)]);
          [|done].
        exfalso. apply Hne.
        rewrite (resolvedFullPath_active _ _ a) by done. congruence.
    + intros _. split; [done|]. intros e He. by apply not_elem_of_nil in He.
  - match goal with
    | |- context [eventsSince s ?x] =>
        rewrite (eventsSince_app s x
                   [EvProxyHistory (formatAppName (name t))
                      (tableMethod replace_ (replace t)) (orNull (state t))
                      (fullPathOf (createURL (stringOf (path t)) (url a)));
                    EvDispatchPopState (formatAppName (name t))])
          by (simpl; by rewrite <- app_assoc)
    end.
    split.
    + split.
      * intros _. split_and!; try done.
        { by rewrite Ha, (sandBoxClosed_Some a sb). }
        left. split; [done|]. exists a, sb. split_and!; try done.
        by rewrite (resolvedFullPath_active _ _ a).
      * intros _. eexists. split; [apply list_elem_of_here|done].
    + intros Hnone. exfalso.
      specialize (Hnone _ (list_elem_of_here _ _)). done.
  - rewrite eventsSince_refl. split.
    + split.
      * intros (e & He & _). by apply not_elem_of_nil in He.
      * intros (_ & _ & _ & [(Hact & _) | (_ & Hne)]); [done|].
        exfalso. apply Hne. by rewrite resolvedFullPath_inactive.
    + intros _. split; [done|]. intros e He. by apply not_elem_of_nil in He.
  - match goal with
    | |- context [eventsSince s ?x] =>
        erewrite (eventsSince_app s x [_]) by (simpl; done)
    end.
    split.
    + split.
      * intros _. split_and!; try done.
        right. split; [done|]. by rewrite resolvedFullPath_inactive.
      * intros _. eexists. split; [apply list_elem_of_here|done].
    + intros Hnone. exfalso.
      specialize (Hnone _ (list_elem_of_here _ _)). done.
Qed.

(** X5. When the request names its method itself ([replace: true] or
    [replace: false]), or when the application is not active, it makes no
    difference whether [router.push] or [router.replace] is called: both do
    the same. *)
Theorem variant_overridden t s :
  formatAppName (name t) ≠ "" → isString (path t) = true →
  (∃ b, replace t = JsBool b)
  ∨ formatAppName (name t) ∉ getActiveApps (world s) →
  replace' t s = push t s.
Proof.
  intros Hname Hpath Hfield.
  unfold replace', push, createNavigationMethod.
  rewrite bool_decide_eq_true_2, Hpath by done. simpl.
  destruct (sandBoxClosed _); [done|].
  case_bool_decide as Hact; [|done].
  destruct Hfield as [[b Hb]|Hin]; [|done].
  rewrite Hb. by destruct b.
Qed.

(** X10. The only notification a navigation method sends goes to the
    application of the request, right after the call to the virtual History
    of that application and as the last thing the method does. No
    notification is sent without that call, and none after a call to the
    browser History. *)
Theorem notification_follows_virtual_history replace_ t s appName :
  let evs := eventsSince s (createNavigationMethod replace_ t s).2 in
  EvDispatchPopState appName ∈ evs
  ↔ appName = formatAppName (name t)
    ∧ ∃ m st p, evs = [EvProxyHistory appName m st p; EvDispatchPopState appName].
Proof.
  intros evs. subst evs.
  destruct (NavOutcome_effects _ _ _ _
              (createNavigationMethod_outcome replace_ t s))
    as [[-> _] | [(msg & -> & _) | [[_ (m & st & p & -> & _)]
                                   | [_ (m & p & st & -> & _)]]]].
  - split; [by intros ?%not_elem_of_nil | by intros (_ & ? & ? & ? & ?)].
  - split; [by intros ?%list_elem_of_singleton | by intros (_ & ? & ? & ? & ?)].
  - split.
    + intros Hin. apply elem_of_cons in Hin as [?|Hin]; [done|].
      apply list_elem_of_singleton in Hin as [= ->]. eauto.
    + intros (-> & _). apply list_elem_of_further, list_elem_of_here.
  - split; [by intros ?%list_elem_of_singleton | by intros (_ & ? & ? & ? & ?)].
Qed.

End NavigationEdges.

Section GuardEdges.

Context {W : Type} `{!Host W}.

Implicit Types (s : State W) (to from : GuardLocation) (guard : RouterGuard)
  (h : Hook) (evs : list Event).



(** ** The idle queue between a navigation and its idle slice *)





(** ** The ledger over a sequence of calls *)

Lemma runCall_ledger (c : Call) s :
  current (runCall c s) = ledgerAfter (current s) c.
Proof.
  destruct c as [t|t|g|g|h g|appName to from|appName|]; simpl; try done.
  - unfold push. apply createNavigationMethod_current.
  - unfold replace'. apply createNavigationMethod_current.
  - by destruct h.
  - apply executeNavigationGuard_current.
  - apply runIdleCallback_current.
Qed.

Lemma ledgerAfter_other (m : gmap string GuardLocation) (c : Call) appName :
  (∀ to from, c ≠ CallExecuteNavigationGuard appName to from) →
  c ≠ CallClearCurrentWhenUnmount appName →
  ledgerAfter m c !! appName = m !! appName.
Proof.
  intros Hnav Hclear. destruct c as [| | | | |a to from|a|]; simpl; try done.
  - apply lookup_insert_ne. intros ->. by eapply Hnav.
  - apply lookup_delete_ne. intros ->. done.
Qed.

(** X9. [router.current] shows, for an application, the [to] of its latest
    navigation: after [executeNavigationGuard(appName, to, from)] the ledger
    holds [to] for it, and it still does after navigations and unmounts of
    other applications, registrations of guards and idle slices in which
    after-guards run. Calls of [router.push] and [router.replace] are left
    out of what may follow: what the sandbox does on such a call is not in
    this file. *)
Theorem ledger_holds_latest_navigation appName to from (before after : list Call) s :
  Forall (λ c, (∀ to' from', c ≠ CallExecuteNavigationGuard appName to' from')
               ∧ c ≠ CallClearCurrentWhenUnmount appName
               ∧ (∀ t, c ≠ CallPush t) ∧ (∀ t, c ≠ CallReplace t)) after →
  current (runCalls (before ++ CallExecuteNavigationGuard appName to from :: after) s)
    !! appName = Some to.
Proof.
  intros Hafter. unfold runCalls. rewrite foldl_app. cbn [foldl].
  set (s1 := runCall (CallExecuteNavigationGuard appName to from)
               (foldl (λ s c, runCall c s) s before)).
  assert (current s1 !! appName = Some to) as Hs1.
  { unfold s1. rewrite runCall_ledger. simpl. apply lookup_insert_eq. }
  clearbody s1. revert s1 Hs1.
  induction Hafter as [|c after (Hnav & Hclear & _ & _) _ IH]; intros s1 Hs1;
    [exact Hs1|].
  cbn [foldl]. apply IH. rewrite runCall_ledger, ledgerAfter_other; done.
Qed.

End GuardEdges.

(** * The small host keeps the contracts *)










(** * The theorems on the small host *)



(** [replace({name: "A", path: "/b"})] replaces in the virtual History of A;
    [push({name: "B", path: "/home", replace: false})] pushes on the browser
    History. *)
Lemma navigation_method_witness :
  eventsSince Demo.s0 (replace' (Demo.target "A" "/b") Demo.s0).2
  = [EvProxyHistory "A" replaceState JsNull "/b"; EvDispatchPopState "A"]
  ∧ eventsSince Demo.s0
      (push {| name := JsString "B"; path := JsString "/home";
               state := JsUndefined; replace := JsBool false |} Demo.s0).2
    = [EvNativeHistory pushState "/?B=/home" JsNull].
Proof.
  split.
  - refine (proj1 (navigation_method true (Demo.target "A" "/b") Demo.s0 _ _ _)
              {| url := "http://localhost:3001/";
                 sandBox := Some {| proxyWindow :=
                                      {| location := Demo.at_ "/a?x=1" |} |} |}
              {| proxyWindow := {| location := Demo.at_ "/a?x=1" |} |}
              _ _ _ _).
    + vm_compute. discriminate.
    + reflexivity.
    + reflexivity.
    + vm_compute. left.
    + reflexivity.
    + reflexivity.
    + vm_compute. discriminate.
  - refine (proj2 (navigation_method false
                     {| name := JsString "B"; path := JsString "/home";
                        state := JsUndefined; replace := JsBool false |}
                     Demo.s0 _ _ _) _ _).
    + vm_compute. discriminate.
    + reflexivity.
    + reflexivity.
    + vm_compute. intros Hin. inversion Hin as [|? ? ? Hin']. inversion Hin'.
    + vm_compute. discriminate.
Defined.

(** C2, as the claim has it: [push({name: "B", path: "/home"})] without a
    [replace] field, for the inactive application B, does not push. It
    replaces the entry of the browser History. *)
Lemma push_to_inactive_replaces :
  let to := Demo.target "B" "/home" in
  replace to = JsUndefined
  ∧ (formatAppName (name to) ∉ getActiveApps (world Demo.s0))
  ∧ eventsSince Demo.s0 (push to Demo.s0).2
    = [EvNativeHistory replaceState "/?B=/home" JsNull]
  ∧ Demo.entries (world (push to Demo.s0).2) = Demo.entries (world Demo.s0).
Proof.
  split_and!; try reflexivity.
  vm_compute. intros Hin. inversion Hin as [|? ? ? Hin']. inversion Hin'.
Qed.

(** A request whose path is a number is reported and changes nothing. *)
Lemma invalid_request_reported_witness :
  let to := {| name := JsString "A"; path := JsNumber 5;
               state := JsUndefined; replace := JsUndefined |} in
  let r := push to Demo.s0 in
  r.1 = Returned
  ∧ eventsSince Demo.s0 r.2
    = [EvLogError "navigation failed, name & path are required when use router.push"]
  ∧ world r.2 = world Demo.s0 ∧ current r.2 = current Demo.s0
  ∧ beforeGuards r.2 = beforeGuards Demo.s0
  ∧ afterGuards r.2 = afterGuards Demo.s0
  ∧ idleCallbacks r.2 = idleCallbacks Demo.s0.
Proof.
  refine (proj1 (invalid_request_reported false
                   {| name := JsString "A"; path := JsNumber 5;
                      state := JsUndefined; replace := JsUndefined |} Demo.s0) _).
  right. reflexivity.
Defined.

(** C3, as the claim has it: no application is registered under "ghost", and
    [replace({name: "ghost", path: "/x", replace: false})] reports nothing:
    it returns after it pushed an entry on the browser History and rewrote
    the browser URL. *)
Lemma unknown_application_navigates :
  let to := {| name := JsString "ghost"; path := JsString "/x";
               state := JsUndefined; replace := JsBool false |} in
  let r := replace' to Demo.s0 in
  appInstanceMap (world Demo.s0) (formatAppName (name to)) = None
  ∧ r.1 = Returned
  ∧ eventsSince Demo.s0 r.2 = [EvNativeHistory pushState "/?ghost=/x" JsNull]
  ∧ Demo.href (world Demo.s0) = "/"
  ∧ Demo.href (world r.2) = "/?ghost=/x"
  ∧ Demo.entries (world r.2) = S (Demo.entries (world Demo.s0)).
Proof. split_and!; reflexivity. Qed.

(** A is active, B is not. *)
Lemma active_inactive_routing_witness :
  Forall (λ e, isNativeHistory e = false)
    (eventsSince Demo.s0 (push (Demo.target "A" "/b") Demo.s0).2)
  ∧ Forall (λ e, isProxyHistory e = false ∧ isNotification e = false)
      (eventsSince Demo.s0 (push (Demo.target "B" "/home") Demo.s0).2).
Proof.
  split.
  - apply (proj1 (active_inactive_routing false (Demo.target "A" "/b") Demo.s0)).
    vm_compute. left.
  - apply (proj2 (active_inactive_routing false (Demo.target "B" "/home") Demo.s0)).
    vm_compute. intros Hin. inversion Hin as [|? ? ? Hin']. inversion Hin'.
Defined.

(** A navigation of A from [/a?x=1] to [/b] with the guards of [Demo.s1]. *)
Lemma ledger_written_before_guards_witness :
  let r := executeNavigationGuard "A" (Demo.at_ "/b") (Demo.at_ "/a?x=1") Demo.s1 in
  current r.2 !! "A" = Some (Demo.at_ "/b")
  ∧ head (eventsSince Demo.s1 r.2) = Some (EvLedgerSet "A" (Demo.at_ "/b"))
  ∧ Forall (guardSees "A" (Demo.at_ "/b")) (eventsSince Demo.s1 r.2).
Proof.
  intros r.
  apply (ledger_written_before_guards "A" (Demo.at_ "/b") (Demo.at_ "/a?x=1")
           Demo.s1 r.1 r.2).
  subst r. vm_compute. reflexivity.
Defined.

(** [beforeEach(g1)] then [beforeEach(g2)]: g1 runs before g2. *)
Lemma before_guards_in_registration_order_witness :
  let s := (beforeEach Demo.g2 (beforeEach Demo.g1 Demo.s0).2).2 in
  let r := executeNavigationGuard "A" (Demo.at_ "/b") (Demo.at_ "/a?x=1") s in
  invokedGuards (eventsSince s r.2) = [Demo.g1; Demo.g2]
  ∧ ∀ i j, invokedGuards (eventsSince s r.2) !! i = Some Demo.g2 →
           invokedGuards (eventsSince s r.2) !! j = Some Demo.g1 → j < i.
Proof.
  intros s r.
  destruct (before_guards_in_registration_order "A" (Demo.at_ "/b")
              (Demo.at_ "/a?x=1") Demo.s0 Demo.g1 Demo.g2 r.1 r.2)
    as (_ & Hall & Horder & _).
  - discriminate.
  - vm_compute. intros Hin. inversion Hin.
  - subst r s. vm_compute. reflexivity.
  - split; [|exact Horder]. apply Hall. reflexivity.
Defined.



(** [beforeEach(g1)] twice on the empty set. *)
Lemma registration_idempotent_witness :
  let s1 := (beforeEach Demo.g1 Demo.s0).2 in
  let s2 := (beforeEach Demo.g1 s1).2 in
  beforeGuards s2 = [Demo.g1]
  ∧ s2 = s1
  ∧ beforeGuards ((beforeEach Demo.g1 Demo.s0).1 s1) = []
  ∧ (length (filter (λ g, g = Demo.g1)
               (invokedGuards
                  (eventsSince s2
                     (runGuards BeforeEach "A" (Demo.at_ "/b") (Demo.at_ "/a?x=1")
                        (beforeGuards s2) s2).2))) ≤ 1)%nat.
Proof.
  intros s1 s2.
  destruct (registration_idempotent BeforeEach Demo.g1 Demo.s0)
    as (_ & Hsame & _ & Honce).
  destruct Honce as [_ Honce]; [constructor|].
  split_and!; [reflexivity | exact Hsame | reflexivity | apply Honce].
Defined.

(** A string in the set of guards, and a keyed guard whose entry for B is a
    number, are passed over. *)
Lemma malformed_guard_skipped_witness :
  runGuard BeforeEach "A" (Demo.at_ "/b") (Demo.at_ "/a?x=1") Demo.g3 Demo.s1
  = (Returned, Demo.s1)
  ∧ runGuard BeforeEach "B" (Demo.at_ "/home") (Demo.at_ "/") Demo.g2 Demo.s1
    = (Returned, Demo.s1)
  ∧ (runGuards BeforeEach "A" (Demo.at_ "/b") (Demo.at_ "/a?x=1")
       [Demo.g1; Demo.g3; Demo.g2] Demo.s1).1 = Returned.
Proof.
  split_and!.
  - apply (malformed_guard_skipped BeforeEach "A" (Demo.at_ "/b")
             (Demo.at_ "/a?x=1") Demo.g3 Demo.s1). reflexivity.
  - apply (malformed_guard_skipped BeforeEach "B" (Demo.at_ "/home")
             (Demo.at_ "/") Demo.g2 Demo.s1). reflexivity.
  - apply (malformed_guard_skipped BeforeEach "A" (Demo.at_ "/b")
             (Demo.at_ "/a?x=1") Demo.g3 Demo.s1); [reflexivity|].
    intros g f args ledger w Hin Hrule. simpl.
    destruct (decide (f = 13)) as [->|]; [|reflexivity].
    exfalso.
    apply elem_of_cons in Hin as [->|Hin];
      [|apply elem_of_cons in Hin as [->|Hin];
        [|apply list_elem_of_singleton in Hin as ->]];
      destruct Hrule as [[Hv _]|(_ & _ & Hv & _)]; discriminate.
Defined.

(** * More of the module, on the small host *)

(** C is registered and its sandbox is closed. *)
Lemma closed_sandbox_reported_witness :
  let r := replace' (Demo.target "C" "/home") Demo.s0 in
  r.1 = Returned
  ∧ eventsSince Demo.s0 r.2
    = [EvLogError "navigation failed, sandBox of app C is closed"]
  ∧ world r.2 = world Demo.s0 ∧ current r.2 = current Demo.s0
  ∧ beforeGuards r.2 = beforeGuards Demo.s0
  ∧ afterGuards r.2 = afterGuards Demo.s0
  ∧ idleCallbacks r.2 = idleCallbacks Demo.s0.
Proof.
  refine (closed_sandbox_reported true (Demo.target "C" "/home") Demo.s0 _ _ _).
  - vm_compute. discriminate.
  - reflexivity.
  - reflexivity.
Defined.

(** A is at [/a?x=1]; a request for [/b] calls a History. *)
Lemma history_mutated_iff_witness :
  ∃ e, e ∈ eventsSince Demo.s0 (push (Demo.target "A" "/b") Demo.s0).2
       ∧ isHistoryMutation e = true.
Proof.
  apply (proj1 (history_mutated_iff false (Demo.target "A" "/b") Demo.s0)).
  split_and!.
  - vm_compute. discriminate.
  - reflexivity.
  - reflexivity.
  - left. split; [vm_compute; left|].
    eexists _, _. split_and!; [reflexivity | reflexivity |].
    vm_compute. discriminate.
Defined.

(** B is not active. *)
Lemma variant_overridden_witness :
  replace' (Demo.target "B" "/home") Demo.s0
  = push (Demo.target "B" "/home") Demo.s0.
Proof.
  apply (variant_overridden (Demo.target "B" "/home") Demo.s0).
  - vm_compute. discriminate.
  - reflexivity.
  - right. vm_compute. intros Hin. inversion Hin as [|? ? ? Hin']. inversion Hin'.
Defined.



(** A navigates to [/b]; then B unmounts and navigates, a guard registers
    and an idle slice runs: the ledger still holds [/b] for A. *)
Lemma ledger_holds_latest_navigation_witness :
  current
    (runCalls
       ([CallExecuteNavigationGuard "A" (Demo.at_ "/a") (Demo.at_ "/")]
        ++ CallExecuteNavigationGuard "A" (Demo.at_ "/b") (Demo.at_ "/a")
        :: [CallClearCurrentWhenUnmount "B";
            CallExecuteNavigationGuard "B" (Demo.at_ "/home") (Demo.at_ "/");
            CallAfterEach Demo.g2;
            CallRunIdleCallback])
       Demo.s1) !! "A"
  = Some (Demo.at_ "/b").
Proof.
  apply (ledger_holds_latest_navigation "A" (Demo.at_ "/b") (Demo.at_ "/a")).
  repeat constructor; try discriminate; intros; discriminate.
Defined.

(** The request that moves A notifies A. *)
Lemma notification_follows_virtual_history_witness :
  EvDispatchPopState "A"
  ∈ eventsSince Demo.s0 (push (Demo.target "A" "/b") Demo.s0).2.
Proof.
  apply (proj2 (notification_follows_virtual_history false
                  (Demo.target "A" "/b") Demo.s0 "A")).
  split; [reflexivity|]. by eexists pushState, JsNull, "/b".
Defined.
